(** * go-fsm-codegen: the generator of [main.go], embedded and verified

    The generator reads an [FSMDefinition] (events keyed by name, each with
    source states, one destination and typed parameters) and builds the text
    of a Go state machine.  This file embeds the functions of [main.go] as
    Rocq functions over strings, with a [strings.Builder] threaded as an
    explicit string, a Go map as a [gmap], a runtime panic as a value of
    [result], and the iteration order of a [range] over a map as an explicit
    argument. *)

From Stdlib Require Import ZArith Ascii Lia.
From stdpp Require Import gmap strings list sorting pretty.

Open Scope Z_scope.

(** ** The Go runtime pieces the generator calls *)

Module Go.

(** Values handed to [fmt.Fprintf] through [...any]: the generator only
    passes strings and ints. *)
Inductive any : Type :=
| Str (s : string)
| Int (z : Z).

(** A call either returns or panics (an index out of range). *)
Inductive result (A : Type) : Type :=
| Ok (a : A)
| Panic (msg : string).
Arguments Ok {A} a.
Arguments Panic {A} msg.

Definition bind {A B} (r : result A) (k : A -> result B) : result B :=
  match r with
  | Ok a => k a
  | Panic msg => Panic msg
  end.

(** The message of the panic that [s[0]] raises on an empty slice. *)
Definition out_of_range : string :=
  "runtime error: index out of range [0] with length 0".

(** The double quote and the newline, written by code. *)
Definition dq : string := String "034" EmptyString.
Definition nl : string := String "010" EmptyString.

(** [len] of a slice and of a map, as a Go [int]. *)
Definition len {A} (l : list A) : Z := Z.of_nat (length l).
Definition len_map {V} (m : gmap string V) : Z := Z.of_nat (size m).

(** [%T] and [%v] of a value. *)
Definition type_name (a : any) : string :=
  match a with
  | Str _ => "string"
  | Int _ => "int"
  end.

Definition show (a : any) : string :=
  match a with
  | Str s => s
  | Int z => pretty z
  end.

(** What [fmt] prints for one verb and its operand: [%v] takes anything,
    [%s] a string, [%d] an int; a verb that does not fit its operand prints
    [%!c(type=value)].  Only these verbs are modelled: the format strings
    written in [main.go] use [%v] alone. *)
Definition bad_verb (c : ascii) (a : any) : string :=
  "%!" +:+ String c ("(" +:+ type_name a +:+ "=" +:+ show a +:+ ")").

Definition verb (c : ascii) (a : any) : string :=
  if (c =? "v")%char then show a
  else if (c =? "s")%char then
    match a with Str s => s | _ => bad_verb c a end
  else if (c =? "d")%char then
    match a with Int z => pretty z | _ => bad_verb c a end
  else bad_verb c a.

Definition missing (c : ascii) : string :=
  "%!" +:+ String c "(MISSING)".

Fixpoint extras (a : list any) : string :=
  match a with
  | [] => ""
  | [x] => type_name x +:+ "=" +:+ show x
  | x :: (_ :: _) as rest =>
      type_name x +:+ "=" +:+ show x +:+ ", " +:+ extras rest
  end.

(** Operands left over when the format is exhausted are reported. *)
Definition finish (a : list any) : string :=
  match a with
  | [] => ""
  | _ :: _ => "%!(EXTRA " +:+ extras a +:+ ")"
  end.

(** [fmt.Sprintf]: literal bytes are copied, [%%] prints a percent sign and
    every other directive consumes the next operand.  The function follows
    [fmt] on the formats whose directives are [%v], [%s], [%d] and [%%];
    flags, widths, argument indexes and the other verbs of [fmt] are not
    modelled, so a result that computes on a template is stated for
    [plain_format] templates only. *)
Fixpoint Sprintf (format : string) (a : list any) {struct format} : string :=
  match format with
  | EmptyString => finish a
  | String c rest =>
      if (c =? "%")%char then
        match rest with
        | EmptyString => "%!(NOVERB)" +:+ finish a
        | String v rest' =>
            if (v =? "%")%char then String "%" (Sprintf rest' a)
            else
              match a with
              | [] => missing v +:+ Sprintf rest' []
              | x :: a' => verb v x +:+ Sprintf rest' a'
              end
        end
      else String c (Sprintf rest a)
  end.

(** [strings.Join(elems, sep)]. *)
Definition Join (elems : list string) (sep : string) : string :=
  String.concat sep elems.

(** [strings.ToUpper] on the bytes of an ASCII string: the letters [a]..[z]
    move to [A]..[Z], every other byte stays.  Outside ASCII Go maps whole
    runes, which this function does not follow: a result that computes on
    the bytes of a name is stated for [ascii_name] names only. *)
Definition upper_byte (c : ascii) : ascii :=
  let n := nat_of_ascii c in
  if ((97 <=? n)%nat && (n <=? 122)%nat)%bool
  then ascii_of_nat (n - 32) else c.

Fixpoint ToUpper (s : string) : string :=
  match s with
  | EmptyString => EmptyString
  | String c rest => String (upper_byte c) (ToUpper rest)
  end.

(** [slices.Sort] on strings, by the order [<=] of Go strings (bytewise
    lexicographic, [String.le]).  The library sorts in place with pattern
    defeating quicksort; for a total antisymmetric order the sorted
    permutation is unique, so a merge sort returns the same slice. *)
Definition Sort (l : list string) : list string := merge_sort String.le l.

(** A [for i, x := range slice] loop body run over the indexed elements. *)
Fixpoint enumerate_from {A} (i : Z) (l : list A) : list (Z * A) :=
  match l with
  | [] => []
  | x :: rest => (i, x) :: enumerate_from (i + 1) rest
  end.

Definition enumerate {A} (l : list A) : list (Z * A) := enumerate_from 0 l.

End Go.

Export Go.

Notation "x <- r ;; k" := (bind r (fun x => k))
  (at level 100, r at next level, right associativity).

(** ** The definition model (the structs of [main.go]) *)

Record FSMEventParams : Type := {
  Param_Name : string;
  Param_Type : string
}.

Record FSMEventDefinition : Type := {
  Source : list string;
  Destination : string;
  Params : list FSMEventParams
}.

Record FSMDefinition : Type := {
  Name : string;
  Imports : list string;
  PackageName : string;
  UseSLog : bool;
  Events : gmap string FSMEventDefinition
}.

Definition _States : Type := list string.

(** A [range] over a Go map visits every entry once, in an order the language
    leaves open: a traversal of the event map is any permutation of its
    entries. *)
Definition traversal (def : FSMDefinition)
    (order : list (string * FSMEventDefinition)) : Prop :=
  order ≡ₚ map_to_list (Events def).

(** ** [_GetStates], [_GetStateName], [_GetNeededUintSize] *)

(** The loop of [_GetStates] over one traversal: [stateSet] is a
    [map[string]bool] whose values are all [true], that is, a set. *)
Definition collect_event (stateSet : gset string)
    (entry : string * FSMEventDefinition) : gset string :=
  let event := entry.2 in
  foldl (fun acc state => {[state]} ∪ acc)
        ({[Destination event]} ∪ stateSet) (Source event).

Definition stateSet_of (order : list (string * FSMEventDefinition)) : gset string :=
  foldl collect_event ∅ order.

(** [maps.Keys(stateSet)] yields the keys in an order the language leaves
    open; [elements] is one such order, and the sort that follows makes the
    choice immaterial. *)
Definition _GetStates_in (order : list (string * FSMEventDefinition)) : _States :=
  let stateSet := stateSet_of order in
  let states := [] ++ elements stateSet in
  Sort states.

Definition _GetStates (def : FSMDefinition) : _States :=
  _GetStates_in (map_to_list (Events def)).

(** The call as the pipeline performs it: the body of [_GetStates] holds no
    operation that can panic. *)
Definition run_GetStates (def : FSMDefinition) : result _States :=
  Ok (_GetStates def).

Definition _GetStateName (s : string) : string :=
  "STATE_" +:+ ToUpper s.

Definition MaxUint8 : Z := 255.
Definition MaxUint16 : Z := 65535.
Definition MaxUint32 : Z := 4294967295.

Definition _GetNeededUintSize (count : Z) : string :=
  let stateEnumType := "uint8" in
  let stateEnumType := if count >? MaxUint8 then "uint16" else stateEnumType in
  let stateEnumType := if count >? MaxUint16 then "uint32" else stateEnumType in
  let stateEnumType := if count >? MaxUint32 then "uint64" else stateEnumType in
  stateEnumType.

(** ** The generator, over the template constants

    [HEADER], [STATES_DEF], [INIT], [FSM_DEF], [LOOKUP_DEF] and [EVENT] are
    package-level format strings that [main.go] uses and does not declare;
    the generator is embedded for arbitrary values of them. *)

Section Generator.

Variables HEADER STATES_DEF INIT FSM_DEF LOOKUP_DEF EVENT : string.

Definition GenerateHeader (builder : string) (definition : FSMDefinition) : string :=
  let builder := builder +:+ Sprintf HEADER [Str (PackageName definition)] in
  let builder :=
    if UseSLog definition
    then builder +:+ (dq +:+ "log/slog" +:+ dq +:+ nl)
    else builder in
  let builder :=
    foldl (fun b imprt => b +:+ Sprintf (dq +:+ "%v" +:+ dq +:+ nl) [Str imprt])
          builder (Imports definition) in
  builder +:+ ")".

(** [states[0]] panics on an empty slice. *)
Definition index0 (states : _States) : result string :=
  match states with
  | [] => Panic out_of_range
  | state0 :: _ => Ok state0
  end.

Definition GenerateStateDefinition (builder : string)
    (definition : FSMDefinition) (states : _States) : result string :=
  let stateEnumType := _GetNeededUintSize (len states) in
  state0 <- index0 states ;;
  let builder :=
    builder +:+ Sprintf STATES_DEF [Str stateEnumType; Str (_GetStateName state0)] in
  let builder :=
    foldl (fun b '(i, state) =>
             if i =? 0 then b else (b +:+ _GetStateName state) +:+ nl)
          builder (enumerate states) in
  Ok (builder +:+ (nl +:+ ")")).

Definition GenerateFSMDefinition (builder : string)
    (definition : FSMDefinition) : string :=
  builder +:+ Sprintf FSM_DEF
    [Str (Name definition);
     Str (_GetNeededUintSize (len_map (Events definition)))].

(** The locals of [GenerateFSMEvent]. *)
Definition validSrcs_of (event : FSMEventDefinition) : list string :=
  foldl (fun validSrcs src => validSrcs ++ [_GetStateName src]) [] (Source event).

Definition lsb_open (definition : FSMDefinition) : string :=
  if UseSLog definition
  then Sprintf ("slog.With(" +:+ dq +:+ "Start State" +:+ dq +:+ ", fsm.State,") []
  else "".

Definition param_step (acc : list string * list string * string)
    (param : FSMEventParams) : list string * list string * string :=
  let '(signature, callParams, lsb) := acc in
  (signature ++ [Sprintf "%v %v" [Str (Param_Name param); Str (Param_Type param)]],
   callParams ++ [Param_Name param],
   lsb +:+ Sprintf (dq +:+ "%v" +:+ dq +:+ ", %v,")
                   [Str (Param_Name param); Str (Param_Name param)]).

Definition param_loop (definition : FSMDefinition) (event : FSMEventDefinition)
    : list string * list string * string :=
  foldl param_step ([], [], lsb_open definition) (Params event).

Definition signature_of (definition : FSMDefinition) (event : FSMEventDefinition)
    : list string := (param_loop definition event).1.1.

Definition callParams_of (definition : FSMDefinition) (event : FSMEventDefinition)
    : list string := (param_loop definition event).1.2.

Definition logging_of (definition : FSMDefinition) (eventName : string)
    (event : FSMEventDefinition) : string :=
  let lsb := (param_loop definition event).2 in
  if UseSLog definition
  then lsb +:+ Sprintf (").Info(" +:+ dq +:+ "User has transitioned to %v" +:+ dq +:+ ")")
                       [Str (_GetStateName eventName)]
  else "".

(** The operand slice [ti] handed to the [EVENT] template. *)
Definition ti_of (definition : FSMDefinition) (index : Z) (eventName : string)
    (event : FSMEventDefinition) : list any :=
  let signature := signature_of definition event in
  let callParams := callParams_of definition event in
  let validSrcs := validSrcs_of event in
  let logging := logging_of definition eventName event in
  [Str eventName;
   Str (Join signature ",");
   Str (Name definition);
   Str eventName;
   Str (Join signature ",");
   Str (Join validSrcs ",");
   Str eventName;
   Str "%v";
   Str logging;
   Int index;
   Str eventName;
   Str (Join callParams ",");
   Str (_GetStateName (Destination event));
   Str (Name definition);
   Str eventName;
   Str eventName;
   Int index].

Definition GenerateFSMEvent (builder : string) (definition : FSMDefinition)
    (states : _States) (index : Z) (eventName : string)
    (event : FSMEventDefinition) : string :=
  builder +:+ Sprintf EVENT (ti_of definition index eventName event).

Definition GenerateInitalizer (builder : string) (definition : FSMDefinition)
    : string :=
  builder +:+ Sprintf INIT
    [Str (Name definition);
     Str (Name definition);
     Str (_GetNeededUintSize (len_map (Events definition)))].

Definition GenerateLookup (builder : string) (states : _States) : string :=
  let builder := builder +:+ LOOKUP_DEF in
  let builder :=
    foldl (fun b '(i, state) =>
             b +:+ Sprintf ("%v:" +:+ dq +:+ "%v" +:+ dq +:+ "," +:+ nl)
                           [Int i; Str state])
          builder (enumerate states) in
  builder +:+ "}".

(** The event loop of [BuildText]: the counter [i] follows the traversal. *)
Definition event_step (definition : FSMDefinition) (states : _States)
    (acc : string * Z) (entry : string * FSMEventDefinition) : string * Z :=
  let '(builder, i) := acc in
  (GenerateFSMEvent builder definition states i entry.1 entry.2, i + 1).

(** [BuildText] under the traversal [order] that its [range] over
    [definition.Events] takes. *)
Definition BuildText_in (order : list (string * FSMEventDefinition))
    (definition : FSMDefinition) : result string :=
  let builder := "" in
  let states := _GetStates definition in
  let builder := GenerateHeader builder definition in
  builder <- GenerateStateDefinition builder definition states ;;
  let builder := GenerateInitalizer builder definition in
  let builder := GenerateFSMDefinition builder definition in
  let builder := GenerateLookup builder states in
  Ok (foldl (event_step definition states) (builder, 0) order).1.

End Generator.

(** ** Sample inputs *)

Definition no_params_event (sources : list string) (destination : string)
    : FSMEventDefinition :=
  {| Source := sources; Destination := destination; Params := [] |}.

(** Two events, [a] and [b], over the states [idle] and [running]. *)
Definition def_ab : FSMDefinition :=
  {| Name := "M"; Imports := []; PackageName := "fsm"; UseSLog := false;
     Events := <["a" := no_params_event ["idle"] "running"]>
               (<["b" := no_params_event ["running"] "idle"]> ∅) |}.

Definition order_ab : list (string * FSMEventDefinition) :=
  [("a", no_params_event ["idle"] "running");
   ("b", no_params_event ["running"] "idle")].

Definition order_ba : list (string * FSMEventDefinition) :=
  [("b", no_params_event ["running"] "idle");
   ("a", no_params_event ["idle"] "running")].

(** One event [start] from [idle] to [running], with logging. *)
Definition start_event : FSMEventDefinition :=
  {| Source := ["idle"]; Destination := "running";
     Params := [ {| Param_Name := "retryCount"; Param_Type := "int" |};
                 {| Param_Name := "reason"; Param_Type := "string" |} ] |}.

Definition def_start : FSMDefinition :=
  {| Name := "M"; Imports := []; PackageName := "fsm"; UseSLog := true;
     Events := {[ "start" := start_event ]} |}.

(** No event at all. *)
Definition def_empty : FSMDefinition :=
  {| Name := "M"; Imports := []; PackageName := "fsm"; UseSLog := false;
     Events := ∅ |}.

(** A definition that names both [idle] and [IDLE]. *)
Definition def_case : FSMDefinition :=
  {| Name := "M"; Imports := []; PackageName := "fsm"; UseSLog := false;
     Events := {[ "wake" := no_params_event ["idle"] "IDLE" ]} |}.



(** The widths of the ladder and the type names they stand for. *)
Definition ladder : list Z := [8; 16; 32; 64].

Definition uint_name (w : Z) : string := "uint" +:+ pretty w.

(** ** The generated transition function *)






(** ** Texts and predicates used in the statements *)

(** An entry of the event map names a state as its destination or as one of
    its sources. *)
Definition names_state (entry : string * FSMEventDefinition) (s : string) : Prop :=
  s = Destination entry.2 \/ s ∈ Source entry.2.

(** Whatever the format, the text of a first string operand appears in the
    output at a place fixed by the format alone: in the directive that
    consumes it, or in the report of unused operands. *)
Definition shows_first_operand (format : string) : Prop :=
  exists p, forall x a, exists t, Sprintf format (Str x :: a) = p +:+ x +:+ t.

(** The lines [GenerateStateDefinition] writes for the states after the
    first, and the entries of the log call and of the signature. *)
Definition enum_lines (rest : list string) : string :=
  foldr (fun state text => _GetStateName state +:+ nl +:+ text) "" rest.

Definition signature_entry (param : FSMEventParams) : string :=
  Param_Name param +:+ " " +:+ Param_Type param.

Definition log_entry (param : FSMEventParams) : string :=
  dq +:+ Param_Name param +:+ dq +:+ ", " +:+ Param_Name param +:+ ",".

Definition log_entries (params : list FSMEventParams) : string :=
  foldr (fun param text => log_entry param +:+ text) "" params.

Definition info_message (symbol : string) : string :=
  ").Info(" +:+ dq +:+ "User has transitioned to " +:+ symbol +:+ dq +:+ ")".

(** The text the event loop of [BuildText] appends: one [EVENT] block per
    entry, in the order of the traversal, numbered from [i] upwards. *)
Fixpoint event_blocks (EVENT : string) (definition : FSMDefinition) (i : Z)
    (order : list (string * FSMEventDefinition)) : string :=
  match order with
  | [] => ""
  | entry :: rest =>
      Sprintf EVENT (ti_of definition i entry.1 entry.2)
      +:+ event_blocks EVENT definition (i + 1) rest
  end.

(** [strings.HasSuffix], to say that a text ends with another. *)
Definition HasSuffix (s suffix : string) : bool :=
  (String.length suffix <=? String.length s)%nat
  && String.eqb
       (String.substring (String.length s - String.length suffix)
                         (String.length suffix) s)
       suffix.

(** Modelled from the spec: the texts of the template constants are not in
    [main.go], and the specification only names the blocks they produce
    (section 4.3).  These sample templates print their operands in a short
    frame; they serve as concrete inputs for the results that hold for every
    template. *)
Definition sample_HEADER : string := "package %v" +:+ nl +:+ "import (" +:+ nl.
Definition sample_STATES_DEF : string :=
  nl +:+ "type State %v" +:+ nl +:+ "const (" +:+ nl +:+ "%v State = iota" +:+ nl.
Definition sample_INIT : string := nl +:+ "%v" +:+ nl +:+ "%v" +:+ nl +:+ "%v" +:+ nl.
Definition sample_FSM_DEF : string := nl +:+ "%v" +:+ nl +:+ "%v" +:+ nl.
Definition sample_LOOKUP_DEF : string :=
  nl +:+ "var stateNames = map[State]string{" +:+ nl.
Definition sample_EVENT : string :=
  foldr (fun _ text => "%v" +:+ nl +:+ text) "" (seq 0 17).

Definition sample_BuildText : list (string * FSMEventDefinition) ->
                              FSMDefinition -> result string :=
  BuildText_in sample_HEADER sample_STATES_DEF sample_INIT sample_FSM_DEF
               sample_LOOKUP_DEF sample_EVENT.

(** ** The entry point

    [main] and [ParseTOML] call the operating system, the TOML decoder and
    [go/format]; these are taken as parameters, and [main] is embedded as the
    sequence of calls it makes, with the [os.WriteFile] calls it issues
    recorded as effects. *)

Inductive effect : Type :=
| WriteFile (name : string) (data : string).

Section Main.

Variables HEADER STATES_DEF INIT FSM_DEF LOOKUP_DEF EVENT : string.

(** The flags [-target-file] and [-dest-file]. *)
Variables TARGET_FILE DEST_FILE : string.

(** An open file, as [os.Open] returns it. *)
Variable File : Type.

(** [os.Open]: the open file, or an error. *)
Variable os_Open : string -> File + string.

(** [toml.NewDecoder(r).Decode(&fsm)] on an open file: the decoded
    definition and the error, if any. *)
Variable toml_Decode : File -> FSMDefinition * option string.

(** [format.Source]: the formatted text, or an error. *)
Variable format_Source : string -> string + string.

(** [os.WriteFile]: the error, if any. *)
Variable os_WriteFile : string -> string -> option string.

Definition ParseTOML (r : File) : FSMDefinition * option string :=
  toml_Decode r.

(** [main], with the traversal its call of [BuildText] takes: the writes it
    issued and how it ended. *)
Definition main (order : list (string * FSMEventDefinition))
    : list effect * result unit :=
  match os_Open TARGET_FILE with
  | inr err => ([], Panic err)
  | inl f =>
      match ParseTOML f with
      | (_, Some err) => ([], Panic err)
      | (fsm, None) =>
          match BuildText_in HEADER STATES_DEF INIT FSM_DEF LOOKUP_DEF EVENT
                             order fsm with
          | Panic msg => ([], Panic msg)
          | Ok generatedCode =>
              match format_Source generatedCode with
              | inr err => ([], Panic err)
              | inl formatted =>
                  ([WriteFile DEST_FILE formatted],
                   match os_WriteFile DEST_FILE formatted with
                   | Some err => Panic err
                   | None => Ok tt
                   end)
              end
          end
      end
  end.

End Main.

(** ** More texts and predicates used in the statements *)

(** The concatenation of a list of texts. *)
Definition concat_all (texts : list string) : string :=
  foldr String.append "" texts.

(** The imports [GenerateHeader] lists, and the line it writes for one. *)
Definition import_list (definition : FSMDefinition) : list string :=
  (if UseSLog definition then ["log/slog"] else []) ++ Imports definition.

Definition import_line (imprt : string) : string :=
  dq +:+ imprt +:+ dq +:+ nl.

(** The entry of the lookup table for the state at index [i]. *)
Definition lookup_entry (i : Z) (state : string) : string :=
  pretty i +:+ ":" +:+ dq +:+ state +:+ dq +:+ "," +:+ nl.

(** The line of the state-enum block for one constant. *)
Definition enum_line (symbol : string) : string := symbol +:+ nl.

(** The ASCII letters [a] .. [z]. *)
Definition is_lower (c : ascii) : bool :=
  ((97 <=? nat_of_ascii c)%nat && (nat_of_ascii c <=? 122)%nat)%bool.

Fixpoint bytes (s : string) : list ascii :=
  match s with
  | EmptyString => []
  | String c rest => c :: bytes rest
  end.

(** The width a ladder name stands for ([0] for any other text). *)
Definition width_of (name : string) : Z :=
  if String.eqb name "uint8" then 8
  else if String.eqb name "uint16" then 16
  else if String.eqb name "uint32" then 32
  else if String.eqb name "uint64" then 64
  else 0.


(** The number of state references of an event map entry: its destination
    and its sources. *)
Definition references (entry : string * FSMEventDefinition) : nat :=
  S (length (Source entry.2)).

(** The event [a] of [def_ab] alone. *)
Definition def_a : FSMDefinition :=
  {| Name := "M"; Imports := []; PackageName := "fsm"; UseSLog := false;
     Events := <["a" := no_params_event ["idle"] "running"]> ∅ |}.

(** The formats on which [Sprintf] is used as a model of [fmt]: every
    directive is [%v] or [%%], the only ones the format strings of
    [main.go] contain (no flag, width, precision, argument index or other
    verb). *)
Fixpoint plain_format (format : string) : bool :=
  match format with
  | EmptyString => true
  | String c rest =>
      if (c =? "%")%char then
        match rest with
        | EmptyString => false
        | String v rest' =>
            ((v =? "v")%char || (v =? "%")%char) && plain_format rest'
        end
      else plain_format rest
  end.


(** A name of ASCII bytes only: on these [strings.ToUpper] works byte by
    byte, as [ToUpper] does. *)
Definition ascii_name (s : string) : Prop :=
  forall c, c ∈ bytes s -> (nat_of_ascii c < 128)%nat.

(** ** Strings and sorting *)

Lemma string_app_cons (c : ascii) (s t : string) :
  String c s +:+ t = String c (s +:+ t).
Proof. reflexivity. Qed.

Lemma string_app_nil_r (s : string) : s +:+ "" = s.
Proof.
  induction s as [|c s IH]; [reflexivity |].
  now rewrite string_app_cons, IH.
Qed.

Lemma string_app_assoc (s t u : string) : (s +:+ t) +:+ u = s +:+ (t +:+ u).
Proof.
  induction s as [|c s IH]; [reflexivity |].
  now rewrite !string_app_cons, IH.
Qed.

Lemma Sort_Permutation (l : list string) : Sort l ≡ₚ l.
Proof. apply merge_sort_Permutation. Qed.

Lemma Sort_StronglySorted (l : list string) : StronglySorted String.le (Sort l).
Proof. apply (StronglySorted_merge_sort String.le). Qed.

(** Sorting forgets the order its input came in. *)
Lemma Sort_order_irrelevant (l k : list string) : l ≡ₚ k -> Sort l = Sort k.
Proof.
  intros Hperm. apply (Sorted_unique String.le).
  - apply (Sorted_merge_sort String.le).
  - apply (Sorted_merge_sort String.le).
  - now rewrite !Sort_Permutation.
Qed.

Lemma elem_of_Sort (s : string) (l : list string) : s ∈ Sort l <-> s ∈ l.
Proof. now rewrite Sort_Permutation. Qed.

(** The element at index 0 of a sorted slice is below every element. *)
Lemma StronglySorted_head_least (s0 : string) (l : list string) :
  StronglySorted String.le (s0 :: l) -> forall s, s ∈ s0 :: l -> String.le s0 s.
Proof.
  intros Hsorted s Hin. apply StronglySorted_inv in Hsorted as [_ Hall].
  apply elem_of_cons in Hin as [-> | Hin]; [reflexivity |].
  rewrite Forall_forall in Hall. now apply Hall.
Qed.

(** ** [_GetStates] *)

(** What one round of the loop adds to [stateSet]. *)
Lemma elem_of_collect_sources (s : string) (sources : list string) (acc : gset string) :
  s ∈ foldl (fun acc state => {[state]} ∪ acc) acc sources <-> s ∈ acc \/ s ∈ sources.
Proof.
  revert acc. induction sources as [|x sources IH]; intros acc; simpl.
  - set_solver.
  - rewrite IH. set_solver.
Qed.

Lemma elem_of_collect_event (s : string) (acc : gset string)
    (entry : string * FSMEventDefinition) :
  s ∈ collect_event acc entry <-> s ∈ acc \/ names_state entry s.
Proof.
  unfold collect_event, names_state. rewrite elem_of_collect_sources. set_solver.
Qed.

Lemma elem_of_collect_loop (s : string) (order : list (string * FSMEventDefinition))
    (acc : gset string) :
  s ∈ foldl collect_event acc order <->
  s ∈ acc \/ exists entry, entry ∈ order /\ names_state entry s.
Proof.
  revert acc. induction order as [|e order IH]; intros acc; simpl.
  - split; [auto |]. intros [H | (entry & Hin & _)]; [exact H |].
    now apply elem_of_nil in Hin.
  - rewrite IH, elem_of_collect_event. split.
    + intros [[H | H] | (entry & Hin & H)].
      * now left.
      * right. exists e. split; [apply elem_of_cons; now left | exact H].
      * right. exists entry. split; [apply elem_of_cons; now right | exact H].
    + intros [H | (entry & Hin & H)]; [now left; left |].
      apply elem_of_cons in Hin as [-> | Hin]; [now left; right |].
      right. now exists entry.
Qed.

Lemma elem_of_GetStates_in (s : string) (order : list (string * FSMEventDefinition)) :
  s ∈ _GetStates_in order <-> exists entry, entry ∈ order /\ names_state entry s.
Proof.
  unfold _GetStates_in, stateSet_of. cbn [app].
  rewrite elem_of_Sort, elem_of_elements, elem_of_collect_loop.
  split; [| now right]. intros [H | H]; [| exact H]. now apply not_elem_of_empty in H.
Qed.

Lemma NoDup_GetStates_in (order : list (string * FSMEventDefinition)) :
  NoDup (_GetStates_in order).
Proof.
  unfold _GetStates_in. cbn [app]. rewrite Sort_Permutation. apply NoDup_elements.
Qed.

(** The traversal the loop of [_GetStates] takes does not show in its
    result. *)
Lemma GetStates_in_traversal (order order' : list (string * FSMEventDefinition)) :
  order ≡ₚ order' -> _GetStates_in order = _GetStates_in order'.
Proof.
  intros Hperm. apply (Sorted_unique String.le).
  - apply (Sorted_merge_sort String.le).
  - apply (Sorted_merge_sort String.le).
  - apply NoDup_Permutation; try apply NoDup_GetStates_in.
    intros s. rewrite !elem_of_GetStates_in.
    split; intros (entry & Hin & H); exists entry; split; try exact H.
    + now rewrite <- Hperm.
    + now rewrite Hperm.
Qed.

Lemma elem_of_GetStates (s : string) (def : FSMDefinition) :
  s ∈ _GetStates def <->
  exists eventName event,
    Events def !! eventName = Some event /\
    (s = Destination event \/ s ∈ Source event).
Proof.
  unfold _GetStates. rewrite elem_of_GetStates_in. split.
  - intros ([eventName event] & Hin & H). exists eventName, event.
    split; [now apply elem_of_map_to_list in Hin | exact H].
  - intros (eventName & event & Hin & H). exists (eventName, event).
    split; [now apply elem_of_map_to_list | exact H].
Qed.

Lemma GetStates_nil_iff (def : FSMDefinition) :
  _GetStates def = [] <-> Events def = ∅.
Proof.
  split.
  - intros Hnil. apply map_empty. intros eventName.
    destruct (Events def !! eventName) as [event|] eqn:Hev; [| reflexivity].
    assert (Destination event ∈ _GetStates def) as Hin.
    { apply elem_of_GetStates. exists eventName, event. split; [exact Hev | now left]. }
    rewrite Hnil in Hin. now apply elem_of_nil in Hin.
  - intros Hempty. unfold _GetStates. now rewrite Hempty, map_to_list_empty.
Qed.

(** C5. [_GetStates] returns a duplicate-free slice of state names, sorted by
    the bytewise lexicographic order, whose members are exactly the names
    that occur as a [Source] entry or as the [Destination] of some event; the
    element at index 0 is the smallest of them.  The result depends neither
    on the order in which the event map is traversed nor on the order in
    which the keys of [stateSet] are collected. *)
Theorem GetStates_sorted_unique_complete (def : FSMDefinition) :
  NoDup (_GetStates def) /\
  StronglySorted String.le (_GetStates def) /\
  (forall s, s ∈ _GetStates def <->
     exists eventName event,
       Events def !! eventName = Some event /\
       (s = Destination event \/ s ∈ Source event)) /\
  (forall state0, _GetStates def !! 0%nat = Some state0 ->
     forall s, s ∈ _GetStates def -> String.le state0 s) /\
  (forall order keys,
     traversal def order ->
     keys ≡ₚ elements (stateSet_of order) ->
     _GetStates_in order = _GetStates def /\ Sort keys = _GetStates def).
Proof.
  split; [apply NoDup_GetStates_in |].
  split; [apply Sort_StronglySorted |].
  split; [intros s; apply elem_of_GetStates |].
  split.
  - intros state0 Hhead s Hin.
    pose proof (Sort_StronglySorted
                  (elements (stateSet_of (map_to_list (Events def)))))
      as Hsorted.
    change (StronglySorted String.le (_GetStates def)) in Hsorted.
    destruct (_GetStates def) as [|s0 rest]; [discriminate |].
    injection Hhead as ->. now apply (StronglySorted_head_least state0 rest).
  - intros order keys Horder Hkeys.
    assert (_GetStates_in order = _GetStates def) as Hsame
      by now apply GetStates_in_traversal.
    split; [exact Hsame |].
    rewrite <- Hsame. now apply Sort_order_irrelevant.
Qed.

(** ** [_GetNeededUintSize] *)

Lemma ladder_inv (w : Z) : w ∈ ladder -> w = 8 \/ w = 16 \/ w = 32 \/ w = 64.
Proof.
  unfold ladder. rewrite !elem_of_cons, elem_of_nil. tauto.
Qed.

Lemma GetNeededUintSize_cases (n : Z) :
  (n <= 255 /\ _GetNeededUintSize n = "uint8") \/
  (255 < n <= 65535 /\ _GetNeededUintSize n = "uint16") \/
  (65535 < n <= 4294967295 /\ _GetNeededUintSize n = "uint32") \/
  (4294967295 < n /\ _GetNeededUintSize n = "uint64").
Proof.
  unfold _GetNeededUintSize, MaxUint8, MaxUint16, MaxUint32.
  destruct (Z.gtb_spec n 255), (Z.gtb_spec n 65535), (Z.gtb_spec n 4294967295);
    try lia; auto with lia.
Qed.

(** The width the guards select: the smallest of the ladder that holds the
    count itself. *)
Lemma GetNeededUintSize_width (n : Z) :
  0 <= n < 2 ^ 63 ->
  exists w, w ∈ ladder /\
            _GetNeededUintSize n = uint_name w /\
            n < 2 ^ w /\
            forall w', w' ∈ ladder -> n < 2 ^ w' -> w <= w'.
Proof.
  intros Hn.
  assert (2 ^ 63 = 9223372036854775808) as E63 by reflexivity.
  assert (2 ^ 8 = 256) as E8 by reflexivity.
  assert (2 ^ 16 = 65536) as E16 by reflexivity.
  assert (2 ^ 32 = 4294967296) as E32 by reflexivity.
  assert (2 ^ 64 = 18446744073709551616) as E64 by reflexivity.
  destruct (GetNeededUintSize_cases n)
    as [[Hr ->] | [[Hr ->] | [[Hr ->] | [Hr ->]]]].
  - exists 8. repeat split; [set_solver | lia |].
    intros w' Hw' _. apply ladder_inv in Hw'. lia.
  - exists 16. repeat split; [set_solver | lia |].
    intros w' Hw' Hlt. apply ladder_inv in Hw' as [-> | Hw']; lia.
  - exists 32. repeat split; [set_solver | lia |].
    intros w' Hw' Hlt. apply ladder_inv in Hw' as [-> | [-> | Hw']]; lia.
  - exists 64. repeat split; [set_solver | lia |].
    intros w' Hw' Hlt. apply ladder_inv in Hw' as [-> | [-> | [-> | ->]]]; lia.
Qed.

(** C2, as the code has it.  For a count [n] that a Go [int] can hold,
    [_GetNeededUintSize] names the smallest width [w] of the ladder
    8, 16, 32, 64 with [n < 2^w], the width that can hold the count itself;
    the counts 0 and 1 both select the 8-bit width. *)
Theorem GetNeededUintSize_smallest_width_holding_count (n : Z) :
  0 <= n < 2 ^ 63 ->
  (exists w, w ∈ ladder /\
             _GetNeededUintSize n = uint_name w /\
             n < 2 ^ w /\
             forall w', w' ∈ ladder -> n < 2 ^ w' -> w <= w') /\
  _GetNeededUintSize 0 = "uint8" /\
  _GetNeededUintSize 1 = "uint8".
Proof.
  intros Hn. split; [now apply GetNeededUintSize_width | split; reflexivity].
Qed.

Lemma GetNeededUintSize_smallest_width_holding_count_at_300 :
  (exists w, w ∈ ladder /\
             _GetNeededUintSize 300 = uint_name w /\
             300 < 2 ^ w /\
             forall w', w' ∈ ladder -> 300 < 2 ^ w' -> w <= w') /\
  _GetNeededUintSize 0 = "uint8" /\
  _GetNeededUintSize 1 = "uint8".
Proof.
  apply (GetNeededUintSize_smallest_width_holding_count 300).
  split; [lia | reflexivity].
Defined.

(** C2, as the claim has it, fails at the count 256: the width 8 already
    satisfies [2^8 > 256 - 1], yet the code answers [uint16]. *)
Lemma GetNeededUintSize_not_smallest_for_count_minus_one :
  ~ (forall n, 0 <= n ->
       exists w, w ∈ ladder /\
                 _GetNeededUintSize n = uint_name w /\
                 2 ^ w > n - 1 /\
                 forall w', w' ∈ ladder -> 2 ^ w' > n - 1 -> w <= w').
Proof.
  intros Hclaim.
  destruct (Hclaim 256) as (w & Hw & Hname & _ & Hmin); [lia |].
  assert (w = 16) as ->.
  { apply ladder_inv in Hw as [-> | [-> | [-> | ->]]];
      vm_compute in Hname; congruence. }
  specialize (Hmin 8). 
  assert (8 ∈ ladder) as H8 by set_solver.
  specialize (Hmin H8). 
  assert (2 ^ 8 = 256) as E8 by reflexivity. lia.
Qed.

(** ** [fmt.Sprintf] on the format strings of the generator *)

Lemma Sprintf_name_type (a b : string) :
  Sprintf "%v %v" [Str a; Str b] = a +:+ " " +:+ b.
Proof.
  change (Sprintf "%v %v" [Str a; Str b]) with (a +:+ " " +:+ (b +:+ "")).
  now rewrite string_app_nil_r.
Qed.

Lemma Sprintf_log_pair (a : string) :
  Sprintf (dq +:+ "%v" +:+ dq +:+ ", %v,") [Str a; Str a]
  = dq +:+ a +:+ dq +:+ ", " +:+ a +:+ ",".
Proof. reflexivity. Qed.

Lemma Sprintf_info (sym : string) :
  Sprintf (").Info(" +:+ dq +:+ "User has transitioned to %v" +:+ dq +:+ ")") [Str sym]
  = ").Info(" +:+ dq +:+ "User has transitioned to " +:+ sym +:+ dq +:+ ")".
Proof. reflexivity. Qed.

Lemma Sprintf_start_state :
  Sprintf ("slog.With(" +:+ dq +:+ "Start State" +:+ dq +:+ ", fsm.State,") []
  = "slog.With(" +:+ dq +:+ "Start State" +:+ dq +:+ ", fsm.State,".
Proof. reflexivity. Qed.

Lemma extras_first (x : string) (a : list any) :
  exists t, extras (Str x :: a) = "string=" +:+ x +:+ t.
Proof.
  destruct a as [|y a].
  - exists "". simpl. now rewrite string_app_nil_r.
  - now exists (", " +:+ extras (y :: a)).
Qed.

Lemma finish_first : shows_first_operand "".
Proof.
  exists "%!(EXTRA string=". intros x a.
  destruct (extras_first x a) as [t Ht]. exists (t +:+ ")").
  change (Sprintf "" (Str x :: a)) with ("%!(EXTRA " +:+ extras (Str x :: a) +:+ ")").
  rewrite Ht. now rewrite !string_app_assoc.
Qed.

Lemma verb_first (c : ascii) :
  exists p, forall x, exists t, verb c (Str x) = p +:+ x +:+ t.
Proof.
  unfold verb.
  destruct (c =? "v")%char; [| destruct (c =? "s")%char; [| destruct (c =? "d")%char]].
  - exists "". intros x. exists "". simpl. now rewrite string_app_nil_r.
  - exists "". intros x. exists "". simpl. now rewrite string_app_nil_r.
  - exists ("%!" +:+ String c "(string="). intros x. now exists ")".
  - exists ("%!" +:+ String c "(string="). intros x. now exists ")".
Qed.

Lemma Sprintf_shows_first_operand (format : string) :
  shows_first_operand format /\ forall c, shows_first_operand (String c format).
Proof.
  induction format as [|d format [IH1 IH2]].
  - split; [apply finish_first |]. intros c.
    destruct finish_first as [p Hp].
    destruct (c =? "%")%char eqn:Hc.
    + exists ("%!(NOVERB)" +:+ p). intros x a. destruct (Hp x a) as [t Ht].
      exists t. simpl. rewrite Hc. simpl in Ht. rewrite Ht.
      now rewrite !string_app_assoc.
    + exists (String c p). intros x a. destruct (Hp x a) as [t Ht].
      exists t. simpl. rewrite Hc. simpl in Ht. now rewrite Ht.
  - split; [apply IH2 |]. intros c.
    destruct (c =? "%")%char eqn:Hc.
    + destruct (d =? "%")%char eqn:Hd.
      * destruct IH1 as [p Hp]. exists (String "%" p). intros x a.
        destruct (Hp x a) as [t Ht]. exists t. simpl. rewrite Hc, Hd. now rewrite Ht.
      * destruct (verb_first d) as [p Hp]. exists p. intros x a.
        destruct (Hp x) as [t Ht]. exists (t +:+ Sprintf format a).
        simpl. rewrite Hc, Hd, Ht. now rewrite !string_app_assoc.
    + destruct (IH2 d) as [p Hp]. exists (String c p). intros x a.
      destruct (Hp x a) as [t Ht]. exists t.
      change (Sprintf (String c (String d format)) (Str x :: a))
        with (if (c =? "%")%char
              then (if (d =? "%")%char then String "%" (Sprintf format (Str x :: a))
                    else verb d (Str x) +:+ Sprintf format a)
              else String c (Sprintf (String d format) (Str x :: a))).
      rewrite Hc. now rewrite Ht.
Qed.

(** Two outputs of one format whose first operands start with different
    bytes differ, whatever text follows them. *)
Lemma Sprintf_first_operand_differs (format : string) (c1 c2 : ascii)
    (x1 x2 : string) (a1 a2 : list any) (rest1 rest2 pre : string) :
  c1 <> c2 ->
  pre +:+ Sprintf format (Str (String c1 x1) :: a1) +:+ rest1 <>
  pre +:+ Sprintf format (Str (String c2 x2) :: a2) +:+ rest2.
Proof.
  intros Hne Heq.
  destruct (Sprintf_shows_first_operand format) as [[p Hp] _].
  destruct (Hp (String c1 x1) a1) as [t1 H1].
  destruct (Hp (String c2 x2) a2) as [t2 H2].
  rewrite H1, H2 in Heq. rewrite !string_app_assoc in Heq.
  apply String.app_inj in Heq. apply String.app_inj in Heq.
  rewrite !string_app_cons in Heq. congruence.
Qed.

Lemma foldl_snoc_map {A B} (f : A -> B) (l : list A) (acc : list B) :
  foldl (fun acc x => acc ++ [f x]) acc l = acc ++ (f <$> l).
Proof.
  revert acc. induction l as [|x l IH]; intros acc; simpl.
  - now rewrite app_nil_r.
  - rewrite IH. now rewrite <- app_assoc.
Qed.

Lemma validSrcs_of_map (event : FSMEventDefinition) :
  validSrcs_of event = _GetStateName <$> Source event.
Proof. unfold validSrcs_of. now rewrite foldl_snoc_map. Qed.

Lemma param_step_eq (param : FSMEventParams)
    (signature callParams : list string) (lsb : string) :
  param_step (signature, callParams, lsb) param
  = (signature ++ [signature_entry param],
     callParams ++ [Param_Name param],
     lsb +:+ log_entry param).
Proof.
  unfold param_step. now rewrite Sprintf_name_type, Sprintf_log_pair.
Qed.

Lemma param_loop_from (params : list FSMEventParams)
    (signature callParams : list string) (lsb : string) :
  foldl param_step (signature, callParams, lsb) params
  = (signature ++ (signature_entry <$> params),
     callParams ++ (Param_Name <$> params),
     lsb +:+ log_entries params).
Proof.
  revert signature callParams lsb.
  induction params as [|p params IH]; intros signature callParams lsb.
  - cbn. now rewrite !app_nil_r, string_app_nil_r.
  - cbn [foldl]. rewrite param_step_eq, IH. cbn [fmap list_fmap foldr log_entries].
    rewrite <- !app_assoc. now rewrite !string_app_assoc.
Qed.

Lemma param_loop_eq (definition : FSMDefinition) (event : FSMEventDefinition) :
  param_loop definition event
  = (signature_entry <$> Params event,
     Param_Name <$> Params event,
     lsb_open definition +:+ log_entries (Params event)).
Proof. unfold param_loop. now rewrite param_loop_from. Qed.

Lemma log_entries_mentions (param : FSMEventParams) (params : list FSMEventParams) :
  param ∈ params ->
  exists pre post, log_entries params = pre +:+ log_entry param +:+ post.
Proof.
  induction params as [|q params IH]; intros Hin.
  - now apply elem_of_nil in Hin.
  - apply elem_of_cons in Hin as [-> | Hin].
    + exists "", (log_entries params). reflexivity.
    + destruct (IH Hin) as (pre & post & Heq).
      exists (log_entry q +:+ pre), post. simpl. rewrite Heq.
      now rewrite !string_app_assoc.
Qed.

Section Pipeline.

Variables HEADER STATES_DEF INIT FSM_DEF LOOKUP_DEF EVENT : string.

Local Abbreviation BuildText :=
  (BuildText_in HEADER STATES_DEF INIT FSM_DEF LOOKUP_DEF EVENT).

Lemma enum_loop (rest : list string) (builder : string) (i : Z) :
  0 < i ->
  foldl (fun b '(i, state) =>
           if i =? 0 then b else (b +:+ _GetStateName state) +:+ nl)
        builder (enumerate_from i rest)
  = builder +:+ enum_lines rest.
Proof.
  revert builder i. induction rest as [|s rest IH]; intros builder i Hi; simpl.
  - now rewrite string_app_nil_r.
  - destruct (Z.eqb_spec i 0) as [-> | _]; [lia |].
    rewrite IH by lia. now rewrite !string_app_assoc.
Qed.

Lemma GenerateStateDefinition_nil (builder : string) (definition : FSMDefinition) :
  GenerateStateDefinition STATES_DEF builder definition [] = Panic out_of_range.
Proof. reflexivity. Qed.

Lemma GenerateStateDefinition_cons (builder : string) (definition : FSMDefinition)
    (state0 : string) (rest : list string) :
  GenerateStateDefinition STATES_DEF builder definition (state0 :: rest)
  = Ok (builder
        +:+ Sprintf STATES_DEF
              [Str (_GetNeededUintSize (len (state0 :: rest)));
               Str (_GetStateName state0)]
        +:+ enum_lines rest +:+ nl +:+ ")").
Proof.
  unfold GenerateStateDefinition, enumerate. simpl.
  rewrite enum_loop by lia. now rewrite !string_app_assoc.
Qed.

Lemma event_loop_blocks (definition : FSMDefinition) (states : _States)
    (order : list (string * FSMEventDefinition)) (builder : string) (i : Z) :
  (foldl (event_step EVENT definition states) (builder, i) order).1
  = builder +:+ event_blocks EVENT definition i order.
Proof.
  revert builder i. induction order as [|entry order IH]; intros builder i.
  - cbn. now rewrite string_app_nil_r.
  - cbn [foldl event_blocks]. unfold event_step at 2, GenerateFSMEvent.
    rewrite IH. now rewrite string_app_assoc.
Qed.

(** The event loop starts from the text of the five leading blocks. *)
Lemma BuildText_in_split (order : list (string * FSMEventDefinition))
    (definition : FSMDefinition) :
  BuildText order definition
  = (builder <- BuildText [] definition ;;
     Ok (builder +:+ event_blocks EVENT definition 0 order)).
Proof.
  unfold BuildText_in.
  destruct (GenerateStateDefinition STATES_DEF _ definition (_GetStates definition));
    [| reflexivity].
  cbn [bind foldl fst]. now rewrite event_loop_blocks.
Qed.

Lemma BuildText_in_empty (order : list (string * FSMEventDefinition))
    (definition : FSMDefinition) :
  Events definition = ∅ -> BuildText order definition = Panic out_of_range.
Proof.
  intros Hempty. apply GetStates_nil_iff in Hempty.
  unfold BuildText_in. now rewrite Hempty.
Qed.

Lemma BuildText_in_nonempty (order : list (string * FSMEventDefinition))
    (definition : FSMDefinition) :
  Events definition <> ∅ -> exists text, BuildText order definition = Ok text.
Proof.
  intros Hne. unfold BuildText_in.
  destruct (_GetStates definition) as [|state0 rest] eqn:Hstates.
  - now apply GetStates_nil_iff in Hstates.
  - rewrite GenerateStateDefinition_cons. simpl. eauto.
Qed.

End Pipeline.

Lemma def_ab_has_events : Events def_ab <> ∅.
Proof.
  intros Hempty. apply (f_equal (fun m => m !! "a")) in Hempty.
  vm_compute in Hempty. discriminate.
Qed.

(** ** The claims about the pipeline *)

Section Claims.

Variables HEADER STATES_DEF INIT FSM_DEF LOOKUP_DEF EVENT : string.

Local Abbreviation BuildText :=
  (BuildText_in HEADER STATES_DEF INIT FSM_DEF LOOKUP_DEF EVENT).

(** C1, on the code.  [BuildText] numbers and emits the event blocks in the
    order its [range] over the event map happens to take, not in the order
    of the sorted event names: every run is the leading blocks followed by
    one block per entry of the traversal, numbered by its position in the
    traversal.  For the definition with the events [a] and [b] the
    traversal that meets [b] first is as legal as the sorted one, and the
    two yield different texts: under every [EVENT] template whose
    directives are [%v] and [%%], and under the sample templates. *)
Theorem BuildText_follows_traversal_not_sorted_names :
  (forall order definition,
     BuildText order definition
     = (builder <- BuildText [] definition ;;
        Ok (builder +:+ event_blocks EVENT definition 0 order))) /\
  traversal def_ab order_ab /\
  traversal def_ab order_ba /\
  (plain_format EVENT = true ->
     BuildText order_ba def_ab <> BuildText order_ab def_ab) /\
  sample_BuildText order_ba def_ab <> sample_BuildText order_ab def_ab.
Proof.
  split; [apply BuildText_in_split |].
  assert (map_to_list (Events def_ab) = order_ab) as Hlist by (vm_compute; reflexivity).
  split; [unfold traversal; now rewrite Hlist |].
  split; [unfold traversal; rewrite Hlist; apply perm_swap |].
  split.
  - intros _.
    rewrite (BuildText_in_split _ _ _ _ _ _ order_ba),
            (BuildText_in_split _ _ _ _ _ _ order_ab).
    destruct (BuildText_in_nonempty HEADER STATES_DEF INIT FSM_DEF LOOKUP_DEF EVENT
                [] def_ab) as [pre ->].
    { apply def_ab_has_events. }
    intros Heq. injection Heq as Heq. revert Heq.
    apply (Sprintf_first_operand_differs EVENT "b" "a" "" ""). congruence.
  - intros Heq. vm_compute in Heq. discriminate Heq.
Qed.


(** C6, as the code has it.  [_GetStates] itself always returns: for an
    empty event map it returns the empty slice.  The fatal error is the
    index-out-of-range panic of [states[0]] in [GenerateStateDefinition];
    it aborts [BuildText] when the event map is empty, and with at least
    one event [BuildText] returns a text. *)
Theorem GetStates_returns_and_BuildText_panics_iff_no_event
    (order : list (string * FSMEventDefinition)) (definition : FSMDefinition) :
  run_GetStates definition = Ok (_GetStates definition) /\
  (Events definition = ∅ ->
     run_GetStates definition = Ok [] /\
     (forall builder,
        GenerateStateDefinition STATES_DEF builder definition
          (_GetStates definition) = Panic out_of_range) /\
     BuildText order definition = Panic out_of_range) /\
  (Events definition <> ∅ -> exists text, BuildText order definition = Ok text).
Proof.
  split; [reflexivity |]. split.
  - intros Hempty. pose proof (proj2 (GetStates_nil_iff definition) Hempty) as Hnil.
    unfold run_GetStates. rewrite Hnil.
    split; [reflexivity |]. split; [reflexivity |].
    now apply BuildText_in_empty.
  - apply BuildText_in_nonempty.
Qed.

(** C9.  With a non-empty event map [_GetStates] returns a non-empty slice,
    so [states[0]] in [GenerateStateDefinition] is in bounds and [BuildText]
    returns a text under every traversal; with an empty event map the
    slice is empty and [states[0]] is out of bounds. *)
Theorem BuildText_total_on_nonempty_events (definition : FSMDefinition) :
  (Events definition <> ∅ ->
     _GetStates definition <> [] /\
     (exists state0, index0 (_GetStates definition) = Ok state0) /\
     (forall order, exists text, BuildText order definition = Ok text)) /\
  (Events definition = ∅ ->
     _GetStates definition = [] /\
     index0 (_GetStates definition) = Panic out_of_range).
Proof.
  split.
  - intros Hne. split; [now rewrite GetStates_nil_iff |].
    split.
    + destruct (_GetStates definition) as [|state0 rest] eqn:Hstates.
      * now apply GetStates_nil_iff in Hstates.
      * now exists state0.
    + intros order. now apply BuildText_in_nonempty.
  - intros Hempty. apply GetStates_nil_iff in Hempty. now rewrite Hempty.
Qed.

End Claims.

Lemma BuildText_follows_traversal_at_samples :
  sample_BuildText order_ba def_ab <> sample_BuildText order_ab def_ab.
Proof.
  destruct (BuildText_follows_traversal_not_sorted_names
              sample_HEADER sample_STATES_DEF sample_INIT sample_FSM_DEF
              sample_LOOKUP_DEF sample_EVENT) as (_ & _ & _ & Hplain & _).
  apply Hplain. reflexivity.
Defined.

(** ** The claims about one event *)

(** The log text when logging is on. *)
Lemma logging_of_enabled (definition : FSMDefinition)
    (eventName : string) (event : FSMEventDefinition) :
  UseSLog definition = true ->
  logging_of definition eventName event
  = lsb_open definition +:+ log_entries (Params event)
    +:+ info_message (_GetStateName eventName).
Proof.
  intros Hlog. unfold logging_of. rewrite Hlog, param_loop_eq, Sprintf_info.
  cbn [snd]. now rewrite !string_app_assoc.
Qed.

(** C4, on the code.  With logging on, the log text ends with the message
    built from [_GetStateName eventName], the mangled name of the event, and
    not from the destination: for the event [start] from [idle] to
    [running] it ends with [STATE_START], not with [STATE_RUNNING]. *)
Theorem logging_message_names_event (definition : FSMDefinition)
    (eventName : string) (event : FSMEventDefinition) :
  UseSLog definition = true ->
  logging_of definition eventName event
  = lsb_open definition +:+ log_entries (Params event)
    +:+ info_message (_GetStateName eventName).
Proof. apply logging_of_enabled. Qed.

Lemma logging_message_names_event_at_start :
  logging_of def_start "start" start_event
  = lsb_open def_start +:+ log_entries (Params start_event)
    +:+ info_message (_GetStateName "start") /\
  HasSuffix (logging_of def_start "start" start_event)
            (info_message "STATE_START") = true /\
  HasSuffix (logging_of def_start "start" start_event)
            (info_message (_GetStateName (Destination start_event))) = false.
Proof.
  split; [apply (logging_message_names_event def_start "start" start_event);
          reflexivity |].
  split; vm_compute; reflexivity.
Defined.

(** The sample [EVENT] template prints its seventeen operands one per
    line. *)
Lemma Sprintf_sample_EVENT (definition : FSMDefinition) (index : Z)
    (eventName : string) (event : FSMEventDefinition) :
  Sprintf sample_EVENT (ti_of definition index eventName event)
  = concat_all ((fun operand => show operand +:+ nl)
                <$> ti_of definition index eventName event).
Proof.
  unfold ti_of. cbn [fmap list_fmap concat_all foldr].
  rewrite !string_app_assoc. reflexivity.
Qed.

(** C7.  [GenerateFSMEvent] appends the [EVENT] template filled with the
    operand slice [ti].  The signature, the second and the fifth operand,
    is the list of [name type] entries of [e.Params] in declared order,
    joined by commas; the ninth operand is the log text, which with logging
    on opens with the pre-transition state ([fsm.State] under the key
    [Start State]) and holds, for every parameter in declared order, its
    name as key and as value.  Under the sample template the emitted block
    is these operands, one per line. *)
Theorem signature_and_log_follow_declared_params (EVENT builder : string)
    (definition : FSMDefinition) (states : _States)
    (index : Z) (eventName : string) (event : FSMEventDefinition) :
  GenerateFSMEvent EVENT builder definition states index eventName event
  = builder +:+ Sprintf EVENT (ti_of definition index eventName event) /\
  signature_of definition event = signature_entry <$> Params event /\
  ti_of definition index eventName event !! 1%nat
    = Some (Str (Join (signature_entry <$> Params event) ",")) /\
  ti_of definition index eventName event !! 4%nat
    = Some (Str (Join (signature_entry <$> Params event) ",")) /\
  ti_of definition index eventName event !! 8%nat
    = Some (Str (logging_of definition eventName event)) /\
  (UseSLog definition = true ->
     logging_of definition eventName event
     = "slog.With(" +:+ dq +:+ "Start State" +:+ dq +:+ ", fsm.State,"
       +:+ log_entries (Params event)
       +:+ info_message (_GetStateName eventName) /\
     forall param, param ∈ Params event ->
       exists pre post,
         logging_of definition eventName event
         = pre +:+ log_entry param +:+ post) /\
  GenerateFSMEvent sample_EVENT builder definition states index eventName event
  = builder +:+ concat_all ((fun operand => show operand +:+ nl)
                            <$> ti_of definition index eventName event).
Proof.
  assert (signature_of definition event = signature_entry <$> Params event) as Hsig.
  { unfold signature_of. now rewrite param_loop_eq. }
  split; [reflexivity |].
  split; [exact Hsig |].
  split; [unfold ti_of; now rewrite Hsig |].
  split; [unfold ti_of; now rewrite Hsig |].
  split; [reflexivity |].
  split.
  - intros Hlog.
    rewrite (logging_of_enabled definition eventName event Hlog).
    unfold lsb_open. rewrite Hlog, Sprintf_start_state.
    split; [now rewrite !string_app_assoc |].
    intros param Hin. destruct (log_entries_mentions param _ Hin) as (pre & post & ->).
    exists ("slog.With(" +:+ dq +:+ "Start State" +:+ dq +:+ ", fsm.State," +:+ pre),
           (post +:+ info_message (_GetStateName eventName)).
    now rewrite !string_app_assoc.
  - unfold GenerateFSMEvent. now rewrite Sprintf_sample_EVENT.
Qed.

Lemma signature_and_log_follow_declared_params_at_start :
  signature_of def_start start_event = ["retryCount int"; "reason string"] /\
  (exists pre post,
     logging_of def_start "start" start_event
     = pre +:+ (dq +:+ "reason" +:+ dq +:+ ", reason,") +:+ post) /\
  String.index 0 "retryCount int,reason string"
    (GenerateFSMEvent sample_EVENT "" def_start (_GetStates def_start) 0
                      "start" start_event) = Some 6%nat /\
  String.index 0 (logging_of def_start "start" start_event)
    (GenerateFSMEvent sample_EVENT "" def_start (_GetStates def_start) 0
                      "start" start_event) = Some 92%nat.
Proof.
  destruct (signature_and_log_follow_declared_params
              sample_EVENT "" def_start (_GetStates def_start) 0 "start" start_event)
    as (_ & Hsig & _ & _ & _ & Hlog & Hemit).
  split; [exact Hsig |].
  split.
  - destruct (Hlog eq_refl) as [_ Hmentions].
    apply (Hmentions {| Param_Name := "reason"; Param_Type := "string" |}).
    unfold start_event. cbn [Params]. apply list_elem_of_further, list_elem_of_here.
  - rewrite Hemit. split; vm_compute; reflexivity.
Defined.




(** C10.  [_GetStateName] is not injective: [idle] and [IDLE] are distinct
    names with the same symbol [STATE_IDLE].  The definition [def_case]
    references both, derives both as states, and its state-enum block
    declares [STATE_IDLE] twice; in general, two distinct derived states
    with one symbol make the list of emitted constants hold a duplicate. *)
Theorem GetStateName_not_injective :
  (exists s1 s2, s1 <> s2 /\ _GetStateName s1 = _GetStateName s2) /\
  "idle" <> "IDLE" /\
  _GetStateName "idle" = "STATE_IDLE" /\
  _GetStateName "IDLE" = "STATE_IDLE" /\
  _GetStates def_case = ["IDLE"; "idle"] /\
  (forall STATES_DEF builder,
     GenerateStateDefinition STATES_DEF builder def_case (_GetStates def_case)
     = Ok (builder
           +:+ Sprintf STATES_DEF [Str "uint8"; Str "STATE_IDLE"]
           +:+ "STATE_IDLE" +:+ nl +:+ nl +:+ ")")) /\
  (forall definition s1 s2,
     s1 <> s2 ->
     s1 ∈ _GetStates definition ->
     s2 ∈ _GetStates definition ->
     _GetStateName s1 = _GetStateName s2 ->
     ~ NoDup (_GetStateName <$> _GetStates definition)).
Proof.
  assert (_GetStates def_case = ["IDLE"; "idle"]) as Hstates
    by (vm_compute; reflexivity).
  split; [exists "idle", "IDLE"; split; [discriminate | reflexivity] |].
  split; [discriminate |]. split; [reflexivity |]. split; [reflexivity |].
  split; [exact Hstates |]. split.
  - intros STATES_DEF builder. rewrite Hstates, GenerateStateDefinition_cons.
    reflexivity.
  - intros definition s1 s2 Hne H1 H2 Heq Hnodup.
    apply list_elem_of_lookup in H1 as [i Hi], H2 as [j Hj].
    assert (i = j) as ->.
    { apply (NoDup_lookup _ i j (_GetStateName s1) Hnodup).
      - now rewrite list_lookup_fmap, Hi.
      - now rewrite list_lookup_fmap, Hj, Heq. }
    congruence.
Qed.

(** C6, as the claim has it, fails: on the definition without events the
    state deriver does not fail, it returns. *)
Lemma GetStates_does_not_fail_on_no_event :
  ~ (forall definition,
       Events definition = ∅ -> exists msg, run_GetStates definition = Panic msg).
Proof.
  intros Hclaim. destruct (Hclaim def_empty) as [msg Hmsg]; [reflexivity |].
  discriminate.
Qed.

Lemma GetStates_returns_and_BuildText_panics_at_samples :
  run_GetStates def_empty = Ok [] /\
  sample_BuildText [] def_empty = Panic out_of_range /\
  exists text, sample_BuildText order_ba def_ab = Ok text.
Proof.
  destruct (GetStates_returns_and_BuildText_panics_iff_no_event
              sample_HEADER sample_STATES_DEF sample_INIT sample_FSM_DEF
              sample_LOOKUP_DEF sample_EVENT [] def_empty) as (_ & Hempty & _).
  destruct (GetStates_returns_and_BuildText_panics_iff_no_event
              sample_HEADER sample_STATES_DEF sample_INIT sample_FSM_DEF
              sample_LOOKUP_DEF sample_EVENT order_ba def_ab) as (_ & _ & Hne).
  destruct (Hempty eq_refl) as (Hrun & _ & Hpanic).
  split; [exact Hrun |]. split; [exact Hpanic |].
  apply Hne, def_ab_has_events.
Defined.

Lemma BuildText_total_on_nonempty_events_at_samples :
  (_GetStates def_ab <> [] /\
   (exists state0, index0 (_GetStates def_ab) = Ok state0) /\
   (forall order, exists text, sample_BuildText order def_ab = Ok text)) /\
  index0 (_GetStates def_empty) = Panic out_of_range.
Proof.
  destruct (BuildText_total_on_nonempty_events
              sample_HEADER sample_STATES_DEF sample_INIT sample_FSM_DEF
              sample_LOOKUP_DEF sample_EVENT def_ab) as [Hne _].
  destruct (BuildText_total_on_nonempty_events
              sample_HEADER sample_STATES_DEF sample_INIT sample_FSM_DEF
              sample_LOOKUP_DEF sample_EVENT def_empty) as [_ Hempty].
  split.
  - apply Hne, def_ab_has_events.
  - now destruct (Hempty eq_refl).
Defined.

(** ** Further properties of the blocks *)

Lemma string_app_nil_l (s : string) : "" +:+ s = s.
Proof. reflexivity. Qed.

Lemma concat_all_app (l k : list string) :
  concat_all (l ++ k) = concat_all l +:+ concat_all k.
Proof.
  induction l as [|x l IH]; [reflexivity |].
  cbn [app concat_all foldr]. fold (concat_all (l ++ k)). fold (concat_all l).
  now rewrite IH, string_app_assoc.
Qed.

(** A loop that appends one text per element appends their concatenation. *)
Lemma foldl_append_texts {A} (f : A -> string) (l : list A) (builder : string) :
  foldl (fun b x => b +:+ f x) builder l = builder +:+ concat_all (f <$> l).
Proof.
  revert builder. induction l as [|x l IH]; intros builder.
  - cbn. now rewrite string_app_nil_r.
  - cbn [foldl fmap list_fmap]. rewrite IH.
    cbn [concat_all foldr]. now rewrite string_app_assoc.
Qed.

Lemma enumerate_from_lookup {A} (l : list A) (i : Z) (k : nat) (x : A) :
  l !! k = Some x -> enumerate_from i l !! k = Some (i + Z.of_nat k, x).
Proof.
  revert i k. induction l as [|y l IH]; intros i k Hk; [discriminate |].
  destruct k as [|k].
  - injection Hk as ->. cbn. do 2 f_equal. lia.
  - change (enumerate_from (i + 1) l !! k = Some (i + Z.of_nat (S k), x)).
    rewrite (IH (i + 1) k Hk). do 2 f_equal. lia.
Qed.

Lemma enumerate_from_length {A} (l : list A) (i : Z) :
  length (enumerate_from i l) = length l.
Proof.
  revert i. induction l as [|y l IH]; intros i; cbn; [reflexivity |].
  now rewrite IH.
Qed.

Lemma enum_lines_concat (rest : list string) :
  enum_lines rest = concat_all (enum_line <$> (_GetStateName <$> rest)).
Proof.
  induction rest as [|s rest IH]; [reflexivity |].
  cbn [enum_lines foldr fmap list_fmap concat_all].
  fold (enum_lines rest).
  fold (concat_all (enum_line <$> (_GetStateName <$> rest))).
  rewrite IH. unfold enum_line. now rewrite string_app_assoc.
Qed.

(** A text that occurs at some index of a list occurs inside the
    concatenation of the list. *)
Lemma concat_all_lookup (l : list string) (k : nat) (x : string) :
  l !! k = Some x -> exists pre post, concat_all l = pre +:+ x +:+ post.
Proof.
  revert k. induction l as [|y l IH]; intros k Hk; [discriminate |].
  destruct k as [|k]; cbn in Hk.
  - injection Hk as ->. exists "", (concat_all l). reflexivity.
  - destruct (IH k Hk) as (pre & post & Heq).
    exists (y +:+ pre), post. cbn [concat_all foldr]. fold (concat_all l).
    rewrite Heq. now rewrite string_app_assoc.
Qed.

Lemma GenerateHeader_eq (HEADER builder : string) (definition : FSMDefinition) :
  GenerateHeader HEADER builder definition
  = builder +:+ Sprintf HEADER [Str (PackageName definition)]
    +:+ concat_all (import_line <$> import_list definition) +:+ ")".
Proof.
  unfold GenerateHeader, import_list.
  rewrite (foldl_append_texts
             (fun imprt => Sprintf (dq +:+ "%v" +:+ dq +:+ nl) [Str imprt])).
  change (fun imprt => Sprintf (dq +:+ "%v" +:+ dq +:+ nl) [Str imprt])
    with import_line.
  destruct (UseSLog definition).
  - rewrite fmap_app, concat_all_app. cbn [fmap list_fmap concat_all foldr].
    rewrite string_app_nil_r.
    change (dq +:+ "log/slog" +:+ dq +:+ nl) with (import_line "log/slog").
    now rewrite !string_app_assoc.
  - cbn [app]. now rewrite !string_app_assoc.
Qed.

Lemma GenerateLookup_eq (LOOKUP_DEF builder : string) (states : _States) :
  GenerateLookup LOOKUP_DEF builder states
  = builder +:+ LOOKUP_DEF
    +:+ concat_all ((fun entry => lookup_entry entry.1 entry.2) <$> enumerate states)
    +:+ "}".
Proof.
  unfold GenerateLookup.
  assert (forall (l : list (Z * string)) b,
            foldl (fun b '(i, state) =>
                     b +:+ Sprintf ("%v:" +:+ dq +:+ "%v" +:+ dq +:+ "," +:+ nl)
                                   [Int i; Str state]) b l
            = b +:+ concat_all ((fun entry => lookup_entry entry.1 entry.2) <$> l))
    as Hloop.
  { induction l as [|[i state] l IH]; intros b.
    - cbn. now rewrite string_app_nil_r.
    - cbn [foldl fmap list_fmap]. rewrite IH.
      cbn [concat_all foldr fst snd]. now rewrite string_app_assoc. }
  rewrite Hloop. now rewrite !string_app_assoc.
Qed.

(** X1.  The header block is the [HEADER] text for the package name, then
    one quoted line per import, [log/slog] first when [UseSLog] is set and
    the declared imports after it in declared order, then the closing
    parenthesis.  Nothing is removed: an import declared twice, or
    [log/slog] declared while [UseSLog] is set, is listed twice. *)
Theorem GenerateHeader_lists_imports (HEADER builder : string)
    (definition : FSMDefinition) :
  GenerateHeader HEADER builder definition
  = builder +:+ Sprintf HEADER [Str (PackageName definition)]
    +:+ concat_all (import_line <$> import_list definition) +:+ ")" /\
  length (import_list definition)
  = (length (Imports definition) + (if UseSLog definition then 1 else 0))%nat /\
  (forall k imprt,
     Imports definition !! k = Some imprt ->
     import_list definition
       !! ((if UseSLog definition then 1 else 0) + k)%nat = Some imprt) /\
  (UseSLog definition = true -> import_list definition !! 0%nat = Some "log/slog").
Proof.
  split; [apply GenerateHeader_eq |]. unfold import_list.
  destruct (UseSLog definition); cbn [app length Nat.add].
  - split; [lia |]. split; [intros k imprt Hk; exact Hk | reflexivity].
  - split; [lia |]. split; [intros k imprt Hk; exact Hk | discriminate].
Qed.

(** X2.  The lookup table is the [LOOKUP_DEF] text, one entry per state in
    the order of the slice, and a closing brace; the entry at position [k]
    pairs the ordinal [k] with the unmangled name of [states[k]].  On an
    empty slice the table is empty: [GenerateLookup] has no index access. *)
Theorem GenerateLookup_pairs_ordinals_with_names (LOOKUP_DEF builder : string)
    (states : _States) :
  GenerateLookup LOOKUP_DEF builder states
  = builder +:+ LOOKUP_DEF
    +:+ concat_all ((fun entry => lookup_entry entry.1 entry.2) <$> enumerate states)
    +:+ "}" /\
  length (enumerate states) = length states /\
  (forall k state,
     states !! k = Some state ->
     enumerate states !! k = Some (Z.of_nat k, state) /\
     exists pre post,
       GenerateLookup LOOKUP_DEF builder states
       = pre +:+ lookup_entry (Z.of_nat k) state +:+ post) /\
  GenerateLookup LOOKUP_DEF builder [] = builder +:+ LOOKUP_DEF +:+ "}".
Proof.
  split; [apply GenerateLookup_eq |].
  split; [apply enumerate_from_length |].
  split.
  - intros k state Hk.
    pose proof (enumerate_from_lookup states 0 k state Hk) as Hentry.
    rewrite Z.add_0_l in Hentry. split; [exact Hentry |].
    destruct (concat_all_lookup
                ((fun entry => lookup_entry entry.1 entry.2) <$> enumerate states)
                k (lookup_entry (Z.of_nat k) state)) as (pre & post & Heq).
    { rewrite list_lookup_fmap. unfold enumerate. now rewrite Hentry. }
    exists (builder +:+ LOOKUP_DEF +:+ pre), (post +:+ "}").
    rewrite GenerateLookup_eq, Heq. now rewrite !string_app_assoc.
  - rewrite GenerateLookup_eq. reflexivity.
Qed.

(** X3.  On a non-empty slice of fewer than [2^63] states,
    [GenerateStateDefinition] names a type of the ladder that holds every
    ordinal of the slice, declares the constant of [states[0]] inside the
    [STATES_DEF] text and the constants of the other states after it, one
    per line and in the order of the slice, and closes the block. *)
Theorem GenerateStateDefinition_declares_every_state (STATES_DEF builder : string)
    (definition : FSMDefinition) (state0 : string) (rest : list string) :
  len (state0 :: rest) < 2 ^ 63 ->
  exists w,
    w ∈ ladder /\
    (forall k state, (state0 :: rest) !! k = Some state -> Z.of_nat k < 2 ^ w) /\
    GenerateStateDefinition STATES_DEF builder definition (state0 :: rest)
    = Ok (builder
          +:+ Sprintf STATES_DEF [Str (uint_name w); Str (_GetStateName state0)]
          +:+ concat_all (enum_line <$> (_GetStateName <$> rest))
          +:+ nl +:+ ")").
Proof.
  intros Hbound.
  destruct (GetNeededUintSize_width (len (state0 :: rest)))
    as (w & Hw & Hname & Hlt & _).
  { split; [unfold len; lia | exact Hbound]. }
  exists w. split; [exact Hw |]. split.
  - intros k state Hk. apply lookup_lt_Some in Hk. unfold len in Hlt. lia.
  - rewrite GenerateStateDefinition_cons, Hname, enum_lines_concat. reflexivity.
Qed.

Lemma GenerateStateDefinition_declares_every_state_at_case :
  exists w,
    w ∈ ladder /\
    (forall k state, ["IDLE"; "idle"] !! k = Some state -> Z.of_nat k < 2 ^ w) /\
    GenerateStateDefinition sample_STATES_DEF "" def_case ["IDLE"; "idle"]
    = Ok ("" +:+ Sprintf sample_STATES_DEF [Str (uint_name w); Str (_GetStateName "IDLE")]
          +:+ concat_all (enum_line <$> (_GetStateName <$> ["idle"]))
          +:+ nl +:+ ")").
Proof.
  apply (GenerateStateDefinition_declares_every_state
           sample_STATES_DEF "" def_case "IDLE" ["idle"]).
  reflexivity.
Defined.

Lemma GetStateName_eq_iff (s1 s2 : string) :
  _GetStateName s1 = _GetStateName s2 <-> ToUpper s1 = ToUpper s2.
Proof.
  unfold _GetStateName. split; [apply String.app_inj | now intros ->].
Qed.

(** X4.  The constants of the state-enum block are pairwise distinct exactly
    when no two derived states have the same upper-case form. *)
Theorem enum_constants_distinct_iff (def : FSMDefinition) :
  NoDup (_GetStateName <$> _GetStates def) <->
  (forall s1 s2,
     s1 ∈ _GetStates def -> s2 ∈ _GetStates def ->
     ToUpper s1 = ToUpper s2 -> s1 = s2).
Proof.
  split.
  - intros Hnodup s1 s2 H1 H2 Heq.
    apply list_elem_of_lookup in H1 as [i Hi], H2 as [j Hj].
    assert (i = j) as ->; [| congruence].
    apply (NoDup_lookup _ i j (_GetStateName s1) Hnodup).
    + now rewrite list_lookup_fmap, Hi.
    + rewrite list_lookup_fmap, Hj. cbn. f_equal. now apply GetStateName_eq_iff.
  - intros Hinj. apply NoDup_fmap_2_strong; [| apply NoDup_GetStates_in].
    intros s1 s2 H1 H2 Heq. apply Hinj; try assumption.
    now apply GetStateName_eq_iff.
Qed.

(** ** [_GetStateName] on the bytes of a name *)

Lemma upper_byte_not_lower (c : ascii) : is_lower (upper_byte c) = false.
Proof.
  unfold upper_byte, is_lower.
  destruct ((97 <=? nat_of_ascii c)%nat && (nat_of_ascii c <=? 122)%nat)%bool eqn:Hc;
    [| exact Hc].
  apply andb_true_iff in Hc as [Hlo Hhi].
  apply Nat.leb_le in Hlo, Hhi.
  rewrite nat_ascii_embedding by lia.
  apply andb_false_iff. left. apply Nat.leb_gt. lia.
Qed.

Lemma upper_byte_fixes_other (c : ascii) : is_lower c = false -> upper_byte c = c.
Proof. unfold upper_byte, is_lower. now intros ->. Qed.

Lemma bytes_ToUpper (s : string) : bytes (ToUpper s) = upper_byte <$> bytes s.
Proof.
  induction s as [|c s IH]; [reflexivity |]. cbn. now rewrite IH.
Qed.

Lemma bytes_inj (s t : string) : bytes s = bytes t -> s = t.
Proof.
  revert t. induction s as [|c s IH]; intros [|d t] H; try discriminate.
  - reflexivity.
  - cbn in H. injection H as -> H. f_equal. now apply IH.
Qed.

Lemma string_length_app (s t : string) :
  String.length (s +:+ t) = (String.length s + String.length t)%nat.
Proof.
  induction s as [|c s IH]; [reflexivity |].
  rewrite string_app_cons. cbn. now rewrite IH.
Qed.

Lemma ToUpper_length (s : string) : String.length (ToUpper s) = String.length s.
Proof. induction s as [|c s IH]; [reflexivity |]. cbn. now rewrite IH. Qed.

(** X5.  For a name of ASCII bytes, the symbol is [STATE_] followed by as
    many bytes as the name has; no byte after the prefix is a lower-case
    ASCII letter, every byte of the name that is not one is kept as it is
    and in place, and mangling the upper-cased name gives the symbol of the
    name. *)
Theorem GetStateName_upper_cases_in_place (s : string) :
  ascii_name s ->
  String.length (_GetStateName s) = (6 + String.length s)%nat /\
  (exists symbol, _GetStateName s = "STATE_" +:+ symbol /\
     length (bytes symbol) = length (bytes s) /\
     (forall c, c ∈ bytes symbol -> is_lower c = false) /\
     (forall k c, bytes s !! k = Some c -> is_lower c = false ->
                  bytes symbol !! k = Some c)) /\
  _GetStateName (ToUpper s) = _GetStateName s.
Proof.
  intros _. split; [| split].
  - unfold _GetStateName. now rewrite string_length_app, ToUpper_length.
  - exists (ToUpper s). split; [reflexivity |]. rewrite bytes_ToUpper.
    split; [now rewrite length_fmap |]. split.
    + intros c Hc. apply list_elem_of_fmap in Hc as (d & -> & _).
      apply upper_byte_not_lower.
    + intros k c Hk Hc. rewrite list_lookup_fmap, Hk. cbn.
      now rewrite upper_byte_fixes_other.
  - unfold _GetStateName. f_equal. apply bytes_inj.
    rewrite !bytes_ToUpper, <- list_fmap_compose. apply list_fmap_ext.
    intros _ c _. cbn. apply upper_byte_fixes_other, upper_byte_not_lower.
Qed.

Lemma GetStateName_upper_cases_in_place_at_my_state :
  String.length (_GetStateName "my-state") = (6 + String.length "my-state")%nat /\
  (exists symbol, _GetStateName "my-state" = "STATE_" +:+ symbol /\
     length (bytes symbol) = length (bytes "my-state") /\
     (forall c, c ∈ bytes symbol -> is_lower c = false) /\
     (forall k c, bytes "my-state" !! k = Some c -> is_lower c = false ->
                  bytes symbol !! k = Some c)) /\
  _GetStateName (ToUpper "my-state") = _GetStateName "my-state".
Proof.
  apply (GetStateName_upper_cases_in_place "my-state").
  intros c Hc. cbn [bytes] in Hc.
  repeat (apply elem_of_cons in Hc as [-> | Hc]; [vm_compute; lia |]).
  now apply elem_of_nil in Hc.
Defined.

(** ** More on [_GetNeededUintSize] *)

(** X6.  [_GetNeededUintSize] answers one of the four ladder names for every
    [int], the 8-bit one for every count up to 255 (negative counts
    included), and a larger count never gets a narrower type. *)
Theorem GetNeededUintSize_monotone (n m : Z) :
  n <= m ->
  width_of (_GetNeededUintSize n) <= width_of (_GetNeededUintSize m) /\
  width_of (_GetNeededUintSize n) ∈ ladder /\
  _GetNeededUintSize n = uint_name (width_of (_GetNeededUintSize n)) /\
  (m <= 255 -> _GetNeededUintSize n = "uint8").
Proof.
  intros Hle.
  destruct (GetNeededUintSize_cases n) as [[Hn ->] | [[Hn ->] | [[Hn ->] | [Hn ->]]]];
    destruct (GetNeededUintSize_cases m) as [[Hm ->] | [[Hm ->] | [[Hm ->] | [Hm ->]]]];
    try lia;
    (split; [vm_compute; congruence |]);
    (split; [vm_compute; set_solver |]);
    (split; [reflexivity |]); intros Hsmall; try reflexivity; lia.
Qed.

Lemma GetNeededUintSize_monotone_at_300_70000 :
  width_of (_GetNeededUintSize 300) <= width_of (_GetNeededUintSize 70000) /\
  width_of (_GetNeededUintSize 300) ∈ ladder /\
  _GetNeededUintSize 300 = uint_name (width_of (_GetNeededUintSize 300)) /\
  (70000 <= 255 -> _GetNeededUintSize 300 = "uint8").
Proof. apply (GetNeededUintSize_monotone 300 70000). lia. Defined.

(** ** More on [_GetStates] *)

Lemma size_union_le (X Y : gset string) : (size (X ∪ Y) <= size X + size Y)%nat.
Proof.
  rewrite size_union_alt.
  assert (size (Y ∖ X) <= size Y)%nat by (apply subseteq_size; set_solver).
  lia.
Qed.

Lemma size_collect_sources (sources : list string) (acc : gset string) :
  (size (foldl (fun acc state => {[state]} ∪ acc) acc sources)
   <= size acc + length sources)%nat.
Proof.
  revert acc. induction sources as [|x sources IH]; intros acc; cbn [foldl length].
  - lia.
  - etransitivity; [apply IH |].
    pose proof (size_union_le {[x]} acc) as Hle. rewrite size_singleton in Hle. lia.
Qed.

Lemma size_collect_event (entry : string * FSMEventDefinition) (acc : gset string) :
  (size (collect_event acc entry) <= size acc + references entry)%nat.
Proof.
  unfold collect_event, references.
  etransitivity; [apply size_collect_sources |].
  pose proof (size_union_le {[Destination entry.2]} acc) as Hle.
  rewrite size_singleton in Hle. lia.
Qed.

Lemma size_collect_loop (order : list (string * FSMEventDefinition))
    (acc : gset string) :
  (size (foldl collect_event acc order)
   <= size acc + sum_list (references <$> order))%nat.
Proof.
  revert acc. induction order as [|entry order IH]; intros acc.
  - cbn. lia.
  - cbn [foldl]. etransitivity; [apply IH |].
    pose proof (size_collect_event entry acc) as Hle.
    change (sum_list (references <$> entry :: order))
      with (references entry + sum_list (references <$> order))%nat.
    lia.
Qed.

(** X7.  [_GetStates] derives at most one state per state reference: the
    number of states is at most the number of events plus the number of
    [Source] entries of all events. *)
Theorem GetStates_at_most_one_state_per_reference (def : FSMDefinition) :
  (length (_GetStates def)
   <= sum_list (references <$> map_to_list (Events def)))%nat /\
  sum_list (references <$> map_to_list (Events def))
  = (size (Events def)
     + sum_list ((fun entry => length (Source entry.2))
                 <$> map_to_list (Events def)))%nat.
Proof.
  split.
  - unfold _GetStates, _GetStates_in. cbn [app].
    rewrite Sort_Permutation. unfold stateSet_of.
    pose proof (size_collect_loop (map_to_list (Events def)) ∅) as Hle.
    rewrite size_empty in Hle. exact Hle.
  - rewrite <- length_map_to_list.
    induction (map_to_list (Events def)) as [|entry l IH]; [reflexivity |].
    change (sum_list (references <$> entry :: l))
      with (references entry + sum_list (references <$> l))%nat.
    change (sum_list ((fun entry => length (Source entry.2)) <$> entry :: l))
      with (length (Source entry.2)
            + sum_list ((fun entry => length (Source entry.2)) <$> l))%nat.
    rewrite IH. unfold references. cbn [length]. lia.
Qed.

(** X8.  [_GetStates] is monotone in the event map: every state derived
    from a definition is derived from any definition whose event map
    extends it. *)
Theorem GetStates_monotone (def def' : FSMDefinition) :
  Events def ⊆ Events def' ->
  forall s, s ∈ _GetStates def -> s ∈ _GetStates def'.
Proof.
  intros Hsub s. rewrite !elem_of_GetStates.
  intros (eventName & event & Hev & Hs). exists eventName, event.
  split; [now apply (lookup_weaken _ _ _ _ Hev) | exact Hs].
Qed.

Lemma GetStates_monotone_at_ab :
  "running" ∈ _GetStates def_ab.
Proof.
  apply (GetStates_monotone def_a def_ab).
  - apply insert_mono, map_empty_subseteq.
  - vm_compute. apply list_elem_of_further, list_elem_of_here.
Defined.

(** ** More on the operands of an event *)

Lemma callParams_of_map (definition : FSMDefinition) (event : FSMEventDefinition) :
  callParams_of definition event = Param_Name <$> Params event.
Proof. unfold callParams_of. now rewrite param_loop_eq. Qed.

(** X9.  [GenerateFSMEvent] appends the [EVENT] template filled with
    seventeen operands: the event name, the signature, the machine name,
    the guard (the mangled sources in declared order joined by commas,
    duplicates kept), a literal [%v], the log text, the index, the
    parameter names in declared order and the mangled destination, in the
    places listed.  With logging off the log text is empty, although the
    loop over the parameters has written to the log builder; an event
    without sources has an empty guard; and the block does not depend on the
    slice of states it is passed, against which no source is checked. *)
Theorem GenerateFSMEvent_operands (EVENT builder : string)
    (definition : FSMDefinition) (states : _States) (index : Z)
    (eventName : string) (event : FSMEventDefinition) :
  GenerateFSMEvent EVENT builder definition states index eventName event
  = builder +:+ Sprintf EVENT
      [Str eventName;
       Str (Join (signature_entry <$> Params event) ",");
       Str (Name definition);
       Str eventName;
       Str (Join (signature_entry <$> Params event) ",");
       Str (Join (_GetStateName <$> Source event) ",");
       Str eventName;
       Str "%v";
       Str (logging_of definition eventName event);
       Int index;
       Str eventName;
       Str (Join (Param_Name <$> Params event) ",");
       Str (_GetStateName (Destination event));
       Str (Name definition);
       Str eventName;
       Str eventName;
       Int index] /\
  (UseSLog definition = false ->
     logging_of definition eventName event = "" /\
     (param_loop definition event).2 = log_entries (Params event)) /\
  (Source event = [] -> Join (_GetStateName <$> Source event) "," = "") /\
  (forall states',
     GenerateFSMEvent EVENT builder definition states' index eventName event
     = GenerateFSMEvent EVENT builder definition states index eventName event).
Proof.
  split.
  - unfold GenerateFSMEvent, ti_of.
    rewrite validSrcs_of_map, callParams_of_map.
    unfold signature_of. now rewrite param_loop_eq.
  - split; [| split].
    + intros Hlog. unfold logging_of. rewrite param_loop_eq. unfold lsb_open.
      rewrite Hlog. split; reflexivity.
    + now intros ->.
    + reflexivity.
Qed.

(** X10.  Every symbol an event of the definition refers to is the symbol of
    a derived state: the symbols of its guard and the symbol of its
    destination are among the constants of the state-enum block. *)
Theorem event_symbols_are_state_constants (def : FSMDefinition)
    (eventName : string) (event : FSMEventDefinition) :
  Events def !! eventName = Some event ->
  (forall symbol, symbol ∈ validSrcs_of event ->
                  symbol ∈ _GetStateName <$> _GetStates def) /\
  _GetStateName (Destination event) ∈ _GetStateName <$> _GetStates def.
Proof.
  intros Hev. split.
  - intros symbol. rewrite validSrcs_of_map. intros Hin.
    apply list_elem_of_fmap in Hin as (src & -> & Hsrc).
    apply list_elem_of_fmap. exists src. split; [reflexivity |].
    apply elem_of_GetStates. exists eventName, event. auto.
  - apply list_elem_of_fmap. exists (Destination event). split; [reflexivity |].
    apply elem_of_GetStates. exists eventName, event. auto.
Qed.

Lemma event_symbols_are_state_constants_at_start :
  (forall symbol, symbol ∈ validSrcs_of start_event ->
                  symbol ∈ _GetStateName <$> _GetStates def_start) /\
  _GetStateName (Destination start_event) ∈ _GetStateName <$> _GetStates def_start.
Proof.
  apply (event_symbols_are_state_constants def_start "start" start_event).
  reflexivity.
Defined.

(** ** The document as a whole *)

Section Document.

Variables HEADER STATES_DEF INIT FSM_DEF LOOKUP_DEF EVENT : string.

Local Abbreviation BuildText :=
  (BuildText_in HEADER STATES_DEF INIT FSM_DEF LOOKUP_DEF EVENT).

Lemma GenerateHeader_appends (builder : string) (definition : FSMDefinition) :
  GenerateHeader HEADER builder definition
  = builder +:+ GenerateHeader HEADER "" definition.
Proof. rewrite !GenerateHeader_eq. now rewrite string_app_nil_l. Qed.

Lemma GenerateLookup_appends (builder : string) (states : _States) :
  GenerateLookup LOOKUP_DEF builder states
  = builder +:+ GenerateLookup LOOKUP_DEF "" states.
Proof. rewrite !GenerateLookup_eq. now rewrite string_app_nil_l. Qed.

Lemma GenerateStateDefinition_appends (builder : string)
    (definition : FSMDefinition) (states : _States) :
  GenerateStateDefinition STATES_DEF builder definition states
  = (block <- GenerateStateDefinition STATES_DEF "" definition states ;;
     Ok (builder +:+ block)).
Proof.
  destruct states as [|state0 rest]; [reflexivity |].
  rewrite !GenerateStateDefinition_cons. cbn [bind].
  now rewrite string_app_nil_l.
Qed.

(** X11.  Every generator only appends to the builder it is given, and the
    document [BuildText] returns is, in this order, the header block, the
    state-enum block, the initializer, the machine-type block, the lookup
    table and one block per event of the traversal, each as generated on an
    empty builder; when the state-enum block panics there is no document. *)
Theorem BuildText_concatenates_blocks
    (order : list (string * FSMEventDefinition)) (definition : FSMDefinition) :
  BuildText order definition
  = (enum <- GenerateStateDefinition STATES_DEF "" definition
               (_GetStates definition) ;;
     Ok (GenerateHeader HEADER "" definition
         +:+ enum
         +:+ GenerateInitalizer INIT "" definition
         +:+ GenerateFSMDefinition FSM_DEF "" definition
         +:+ GenerateLookup LOOKUP_DEF "" (_GetStates definition)
         +:+ event_blocks EVENT definition 0 order)) /\
  (forall builder,
     GenerateHeader HEADER builder definition
     = builder +:+ GenerateHeader HEADER "" definition /\
     GenerateStateDefinition STATES_DEF builder definition (_GetStates definition)
     = (block <- GenerateStateDefinition STATES_DEF "" definition
                   (_GetStates definition) ;;
        Ok (builder +:+ block)) /\
     GenerateInitalizer INIT builder definition
     = builder +:+ GenerateInitalizer INIT "" definition /\
     GenerateFSMDefinition FSM_DEF builder definition
     = builder +:+ GenerateFSMDefinition FSM_DEF "" definition /\
     GenerateLookup LOOKUP_DEF builder (_GetStates definition)
     = builder +:+ GenerateLookup LOOKUP_DEF "" (_GetStates definition) /\
     forall states index eventName event,
       GenerateFSMEvent EVENT builder definition states index eventName event
       = builder
         +:+ GenerateFSMEvent EVENT "" definition states index eventName event).
Proof.
  split.
  - rewrite BuildText_in_split. unfold BuildText_in.
    rewrite GenerateStateDefinition_appends.
    destruct (GenerateStateDefinition STATES_DEF "" definition
                (_GetStates definition)) as [enum | msg]; [| reflexivity].
    cbn [bind foldl fst]. rewrite GenerateLookup_appends.
    unfold GenerateFSMDefinition, GenerateInitalizer.
    rewrite !string_app_nil_l. now rewrite !string_app_assoc.
  - intros builder.
    split; [apply GenerateHeader_appends |].
    split; [apply GenerateStateDefinition_appends |].
    split; [reflexivity |]. split; [reflexivity |].
    split; [apply GenerateLookup_appends | reflexivity].
Qed.



End Document.


(** ** [main] *)

Section MainProperties.

Variables HEADER STATES_DEF INIT FSM_DEF LOOKUP_DEF EVENT : string.
Variables TARGET_FILE DEST_FILE : string.
Variable File : Type.
Variable os_Open : string -> File + string.
Variable toml_Decode : File -> FSMDefinition * option string.
Variable format_Source : string -> string + string.
Variable os_WriteFile : string -> string -> option string.

Local Abbreviation BuildText :=
  (BuildText_in HEADER STATES_DEF INIT FSM_DEF LOOKUP_DEF EVENT).

Local Abbreviation run_main :=
  (main HEADER STATES_DEF INIT FSM_DEF LOOKUP_DEF EVENT TARGET_FILE DEST_FILE
        File os_Open toml_Decode format_Source os_WriteFile).

(** X14.  [main] writes at most once, to the destination file, and what it
    writes is the formatted document of the decoded definition: a write
    happens only when the target file opened, decoded without error, has at
    least one event, and the document passed [format.Source].  When the
    decoded definition has no event, [main] panics with the index error of
    [BuildText] and writes nothing; [main] ends without panic only after a
    write that reported no error. *)
Theorem main_writes_only_the_formatted_document
    (order : list (string * FSMEventDefinition)) :
  (length (run_main order).1 <= 1)%nat /\
  (forall name data,
     WriteFile name data ∈ (run_main order).1 ->
     name = DEST_FILE /\
     exists f fsm generatedCode,
       os_Open TARGET_FILE = inl f /\
       toml_Decode f = (fsm, None) /\
       Events fsm <> ∅ /\
       BuildText order fsm = Ok generatedCode /\
       format_Source generatedCode = inl data) /\
  (forall f fsm,
     os_Open TARGET_FILE = inl f ->
     toml_Decode f = (fsm, None) ->
     Events fsm = ∅ ->
     run_main order = ([], Panic out_of_range)) /\
  ((run_main order).2 = Ok tt ->
     exists data, (run_main order).1 = [WriteFile DEST_FILE data] /\
                  os_WriteFile DEST_FILE data = None).
Proof.
  unfold main, ParseTOML.
  destruct (os_Open TARGET_FILE) as [f | err] eqn:Hopen.
  2:{ cbn. split; [lia |]. split; [intros ? ? Hin; now apply elem_of_nil in Hin |].
      split; [discriminate | discriminate]. }
  destruct (toml_Decode f) as [fsm [err |]] eqn:Hdecode.
  { cbn. split; [lia |]. split; [intros ? ? Hin; now apply elem_of_nil in Hin |].
    split; [| discriminate]. intros f' fsm' Hf'. injection Hf' as <-.
    rewrite Hdecode. discriminate. }
  destruct (BuildText order fsm) as [generatedCode | msg] eqn:Hbuild.
  2:{ cbn. split; [lia |]. split; [intros ? ? Hin; now apply elem_of_nil in Hin |].
      split; [| discriminate]. intros f' fsm' Hf'. injection Hf' as <-.
      rewrite Hdecode. intros Hfsm Hempty. injection Hfsm as <-.
      rewrite (BuildText_in_empty _ _ _ _ _ _ order fsm Hempty) in Hbuild.
      now injection Hbuild as <-. }
  assert (Events fsm <> ∅) as Hne.
  { intros Hempty.
    rewrite (BuildText_in_empty _ _ _ _ _ _ order fsm Hempty) in Hbuild.
    discriminate. }
  destruct (format_Source generatedCode) as [formatted | err] eqn:Hformat.
  2:{ cbn. split; [lia |]. split; [intros ? ? Hin; now apply elem_of_nil in Hin |].
      split; [| discriminate]. intros f' fsm' Hf'. injection Hf' as <-.
      rewrite Hdecode. intros Hfsm Hempty. injection Hfsm as <-. contradiction. }
  cbn [fst snd length]. split; [lia |]. split.
  - intros name data Hin. apply list_elem_of_singleton in Hin.
    injection Hin as -> ->. split; [reflexivity |].
    exists f, fsm, generatedCode. auto.
  - split.
    + intros f' fsm' Hf'. injection Hf' as <-.
      rewrite Hdecode. intros Hfsm Hempty. injection Hfsm as <-. contradiction.
    + intros Hok. exists formatted. split; [reflexivity |].
      destruct (os_WriteFile DEST_FILE formatted); [discriminate | reflexivity].
Qed.

End MainProperties.
